(** * MemTable: the connection/event-loop core and the readline [Line] buffer

    A shallow embedding of
    - [utils/readline/terminal.go]: the [Line] editing buffer;
    - the server core ([Server.handleRead], [Server.eventLoop], [NewServer],
      [Server.Start]).

    Go values are modelled as follows.  An [int] is a [Z] (64-bit wrap-around
    is written out where the operand is an arbitrary input); a [[]byte] is a
    [list byte]; a slice expression that Go would refuse with a run-time
    panic yields [None]; a [*Client] is a key into a heap of [Client] records
    (the pointer is what travels on the channels, so every reader sees the
    record as it is when it reads); a buffered channel is the list of the
    values it holds, oldest first. *)

From Stdlib Require Import ZArith Lia.
From Stdlib.Strings Require Import Byte.
From stdpp Require Import base option list gmap sets strings.

Local Open Scope Z_scope.

(** ** Go integers *)

Definition wrap64 (z : Z) : Z := (z + 2 ^ 63) mod 2 ^ 64 - 2 ^ 63.

(** ** utils/readline/terminal.go: [Line] *)

Module Readline.

Record Line := mkLine { insertPos : Z; content : list byte }.

Definition len (s : list byte) : Z := Z.of_nat (length s).

(** [s[lo:]]: refused unless [0 <= lo <= len(s)]. *)
Definition slice_from (s : list byte) (lo : Z) : option (list byte) :=
  if decide (0 ≤ lo ≤ len s) then Some (drop (Z.to_nat lo) s) else None.

(** [copy(s[lo:], src)] seen on the whole backing slice [s]: the first
    [min(len(s[lo:]), len(src))] bytes of [src] land at offset [lo]. *)
Definition copy_at (s : list byte) (lo : Z) (src : list byte) : list byte :=
  let n := Nat.min (length s - Z.to_nat lo) (length src) in
  take (Z.to_nat lo) s ++ take n src ++ drop (Z.to_nat lo + n) s.

(** [s[i] = c]: refused unless [0 <= i < len(s)]. *)
Definition index_set (s : list byte) (i : Z) (c : byte) : option (list byte) :=
  if decide (0 ≤ i < len s) then Some (<[Z.to_nat i := c]> s) else None.

Definition newLine : Line := mkLine 0 [].

Definition newLineFrom (c : list byte) : Line := mkLine (len c) c.

(** [write] returns the line after the call, the new offset and the bytes
    to flush ([l.content[l.insertPos-1:]]). *)
Definition write (c : byte) (l : Line) : option (Line * Z * list byte) :=
  if decide (insertPos l = len (content l)) then
    let pos := insertPos l + 1 in
    let ct := content l ++ [c] in
    out ← slice_from ct (pos - 1);
    Some (mkLine pos ct, pos, out)
  else
    let ct := content l ++ [x00] in
    _ ← slice_from ct (insertPos l + 1);
    src ← slice_from ct (insertPos l);
    let ct1 := copy_at ct (insertPos l + 1) src in
    ct2 ← index_set ct1 (insertPos l) c;
    let pos := insertPos l + 1 in
    out ← slice_from ct2 (pos - 1);
    Some (mkLine pos ct2, pos, out).

(** [delete]: [append(l.content[:l.insertPos-1], l.content[l.insertPos:]...)]
    shifts the tail one place left.  The prefix bound is checked against the
    capacity, the suffix bound against the length, so the call is refused
    exactly when [insertPos] is negative or beyond the length. *)
Definition delete (l : Line) : option (Line * Z * list byte) :=
  if decide (insertPos l = 0) then Some (l, 0, [])
  else
    if decide (0 ≤ insertPos l - 1) then
      tl ← slice_from (content l) (insertPos l);
      let ct := take (Z.to_nat (insertPos l - 1)) (content l) ++ tl in
      let pos := insertPos l - 1 in
      out ← slice_from ct pos;
      Some (mkLine pos ct, pos, out ++ [x20])
    else None.

Definition moveCursor (offset : Z) (l : Line) : Line :=
  let pos := wrap64 (insertPos l + offset) in
  if decide (pos < 0) then mkLine 0 (content l)
  else if decide (pos > len (content l)) then mkLine (len (content l)) (content l)
  else mkLine pos (content l).

Definition head (l : Line) : Z := insertPos l.

Definition tail (l : Line) : Z := len (content l) - insertPos l.

(** The invariant of a [Line]. *)
Definition line_ok (l : Line) : Prop := 0 ≤ insertPos l ≤ len (content l).

(** *** Words of a line *)

#[global] Instance byte_eq_dec : EqDecision byte := Byte.byte_eq_dec.

(** The index of the first space of [s], or its length when it has none:
    the loop [for i := 0; i < len(s); i++] that stops at [s[i] == ' ']. *)
Fixpoint space_index (s : list byte) : nat :=
  match s with
  | [] => O
  | b :: s' => if decide (b = x20) then O else S (space_index s')
  end.

(** [s[i:j]] for [i <= j <= len(s)]. *)
Definition slice (s : list byte) (i j : nat) : list byte :=
  take (j - i) (drop i s).

Definition firstWord (l : Line) : list byte :=
  slice (content l) 0 (space_index (content l)).

(** The first loop of [currentWord], entered with [i = n - 1]: it goes down
    to the nearest space, or below 0; the result is [i + 1].  [None] when
    [content[i]] is out of range. *)
Fixpoint word_start (s : list byte) (n : nat) : option nat :=
  match n with
  | O => Some O
  | S m =>
      match s !! m with
      | Some b => if decide (b = x20) then Some (S m) else word_start s m
      | None => None
      end
  end.

(** [currentWord]: the first loop is skipped for a negative [insertPos] and
    the second then reads [content[j]] below 0; for an [insertPos] beyond
    the length the first loop reads beyond the end.  Otherwise the second
    loop goes from [insertPos] up to the nearest space or the end. *)
Definition currentWord (l : Line) : option (list byte) :=
  if decide (insertPos l < 0) then None
  else
    let n := Z.to_nat (insertPos l) in
    i1 ← word_start (content l) n;
    let j := (n + space_index (drop n (content l)))%nat in
    Some (slice (content l) i1 j).

(** ** utils/readline/util.go: [SplitRepeatableSeg] *)

Definition byte_at (s : list byte) (i : nat) (b : byte) : bool :=
  bool_decide (s !! i = Some b).

(** The inner loop, entered at [k]: the first [k] with [s[k]] a quote,
    [s[k-1]] no backslash and [s[k+1]] the separator or [k] the last index;
    [None] when the loop runs to the end.  Each pass moves [k] forward, so
    [len(s)] passes are enough. *)
Fixpoint close_quote (s : list byte) (seg : byte) (fuel k : nat) : option nat :=
  match fuel with
  | O => None
  | S f =>
      match s !! k with
      | None => None
      | Some b =>
          if bool_decide (b = x22) && negb (byte_at s (k - 1) x5c)
             && (bool_decide (k = (length s - 1)%nat) || byte_at s (k + 1) seg)
          then Some k
          else close_quote s seg f (S k)
      end
  end.

(** The outer loop, entered with [splits], [i] and [j]; it returns them as
    they are when [j] reaches [len(s)].  After a quoted piece the code sets
    [i, j = k+1, k] and the loop's [j++] follows. *)
Fixpoint split_loop (s : list byte) (seg : byte) (fuel : nat)
    (splits : list (list byte)) (i j : nat) : list (list byte) * nat * nat :=
  match fuel with
  | O => (splits, i, j)
  | S f =>
      match s !! j with
      | None => (splits, i, j)
      | Some b =>
          if decide (b = seg) then
            if decide (i < j)%nat
            then split_loop s seg f (splits ++ [slice s i j]) (S j) (S j)
            else split_loop s seg f splits (S i) (S j)
          else if bool_decide (b = x22)
                  && (bool_decide (j = O) || byte_at s (j - 1) seg) then
            match close_quote s seg (length s) (S j) with
            | Some k => split_loop s seg f (splits ++ [slice s (S j) k]) (S k) (S k)
            | None => split_loop s seg f splits i (S j)
            end
          else split_loop s seg f splits i (S j)
      end
  end.

(** The statement after the loop. *)
Definition split_finish (s : list byte) (st : list (list byte) * nat * nat)
  : list (list byte) :=
  let '(splits, i, j) := st in
  if decide (i < length s ∧ i < j)%nat then splits ++ [slice s i j] else splits.

Definition SplitRepeatableSeg (s : list byte) (seg : byte) : list (list byte) :=
  split_finish s (split_loop s seg (length s) [] 0 0).

(** The pieces of [s] between separators, the empty ones left out; [cur] is
    the piece under way. *)
Fixpoint fields_acc (seg : byte) (cur : list byte) (s : list byte)
  : list (list byte) :=
  match s with
  | [] => match cur with [] => [] | _ => [cur] end
  | b :: s' =>
      if decide (b = seg)
      then match cur with
           | [] => fields_acc seg [] s'
           | _ => cur :: fields_acc seg [] s'
           end
      else fields_acc seg (cur ++ [b]) s'
  end.

Definition fields (seg : byte) (s : list byte) : list (list byte) :=
  fields_acc seg [] s.

End Readline.

(** ** The server core *)

Module Server.

(** [time.Time] is a count of nanoseconds, [time.Duration] likewise. *)
Definition Second : Z := 1000000000.

(** [Time.Unix()]: whole seconds. *)
Definition Unix (t : Z) : Z := t / Second.

(** Modelled from the spec: the status enumeration is declared in client.go,
    which is not among the sources; the event loop and the handler only name
    [ERROR] and [EXIT], the spec names the third state. *)
Inductive Status := ACTIVE | ERROR | EXIT.

#[global] Instance Status_eq_dec : EqDecision Status.
Proof. solve_decision. Defined.

(** A command is the [[][]byte] that [ArrayData.ToCommand] returns. *)
Definition Command := list (list byte).

(** A [*Client]: the address of the session record, which is also the
    identity under which the registry knows it. *)
Definition ClientId := positive.
Bind Scope positive_scope with ClientId.

(** *** Channels *)

Record Chan (A : Type) := mkChan { cap : nat; buf : list A }.
Arguments mkChan {A} _ _.
Arguments cap {A} _.
Arguments buf {A} _.

(** [make(chan A, n)] *)
Definition make_chan {A} (n : nat) : Chan A := mkChan n [].

(** [ch <- x]: [None] while the buffer is full (the sender waits). *)
Definition chan_send {A} (x : A) (ch : Chan A) : option (Chan A) :=
  if decide (length (buf ch) < cap ch)%nat
  then Some (mkChan (cap ch) (buf ch ++ [x])) else None.

(** [<-ch]: [None] while the buffer is empty (the receiver waits). *)
Definition chan_recv {A} (ch : Chan A) : option (A * Chan A) :=
  match buf ch with
  | [] => None
  | x :: q => Some (x, mkChan (cap ch) q)
  end.

(** *** Collaborating packages

    [db], [db/cmd] and [resp] are used through these operations only.  A
    [*db.DataBase] is a reference into the key-value heap [Store]; a command
    handler may change that heap. *)
Class Collaborators := {
  Store : Type;
  DbRef : Type;
  RedisData : Type;
  ArrayData : Type;
  NewDataBase : Store → Store * DbRef;
  cmd_Get : DbRef → Command → Store → Store * RedisData;
  cmd_Set : DbRef → Command → Store → Store * RedisData;
  ToBytes : RedisData → list byte;
  ToCommand : ArrayData → option Command
}.

Section model.
Context `{K : Collaborators}.

(** *** Sessions, registry, time events (client.go, time_event.go) *)

(** Modelled from the spec: the [Client] record of client.go (absent), with
    the fields the core reads and writes: bound database, status, last
    activity ([tp], what [UpdateTimestamp] refreshes), pending command
    ([nil] is [None]) and the reply channel [res]. *)
Record Client := mkClient {
  db : DbRef;
  status : Status;
  tp : Z;
  cmd : option Command;
  res : Chan (list byte)
}.

Definition set_status (st : Status) (c : Client) : Client :=
  mkClient (db c) st (tp c) (cmd c) (res c).
Definition set_tp (t : Z) (c : Client) : Client :=
  mkClient (db c) (status c) t (cmd c) (res c).
Definition set_cmd (k : option Command) (c : Client) : Client :=
  mkClient (db c) (status c) (tp c) k (res c).
Definition set_res (r : Chan (list byte)) (c : Client) : Client :=
  mkClient (db c) (status c) (tp c) (cmd c) r.

(** Modelled from the spec: [NewClient] of client.go (absent).  A session
    starts [ACTIVE] with no pending command; its reply channel holds one
    reply in flight. *)
Definition NewClient (d : DbRef) (now : Z) : Client :=
  mkClient d ACTIVE now None (make_chan 1).

(** Modelled from the spec: [Client.UpdateTimestamp] of client.go (absent)
    refreshes the last-activity time. *)
Definition UpdateTimestamp (now : Z) (c : Client) : Client := set_tp now c.

(** What a time-event callback can reach: the session records, the
    key-value heap and the registry. *)
Record World := mkWorld {
  clients : gmap ClientId Client;
  store : Store;
  clis : gset ClientId
}.

Definition set_clients (m : gmap ClientId Client) (w : World) : World :=
  mkWorld m (store w) (clis w).
Definition set_store (st : Store) (w : World) : World :=
  mkWorld (clients w) st (clis w).
Definition set_clis (r : gset ClientId) (w : World) : World :=
  mkWorld (clients w) (store w) r.

(** Modelled from the spec: [NewClientList] of client.go (absent): the
    registry, a set of sessions keyed by identity, initially empty. *)
Definition NewClientList : gset ClientId := ∅.

(** Modelled from the spec: [ClientList.AddClientIfNotExist] of client.go
    (absent): idempotent registration, answering whether the session was
    new. *)
Definition AddClientIfNotExist (c : ClientId) (r : gset ClientId)
  : gset ClientId * bool :=
  if decide (c ∈ r) then (r, false) else ({[c]} ∪ r, true).

(** Modelled from the spec: [ClientList.RemoveClient] of client.go (absent):
    deregistration. *)
Definition RemoveClient (c : ClientId) (r : gset ClientId) : gset ClientId :=
  r ∖ {[c]}.

(** A registered session is idle at [now] for [d] when its last activity is
    [d] or more in the past. *)
Definition idle_for (d now : Z) (w : World) (c : ClientId) : Prop :=
  match clients w !! c with
  | Some cli => d ≤ now - tp cli
  | None => False
  end.

#[global] Instance idle_for_dec d now w c : Decision (idle_for d now w c).
Proof. unfold idle_for. destruct (clients w !! c); apply _. Defined.

(** Modelled from the spec: [ClientList.RemoveLongNotUsed] of client.go
    (absent): the sweep takes out of the registry the sessions idle for the
    threshold [d] or longer and keeps the others.  The spec gives no meaning
    to the first argument; the model carries it and does not use it. *)
Definition RemoveLongNotUsed (num : Z) (d : Z) (now : Z) (w : World) : World :=
  set_clis (filter (λ c, ¬ idle_for d now w c) (clis w)) w.

(** Modelled from the spec: the time event of time_event.go (absent):
    callback, next fire time in Unix seconds, interval, periodic or not.  The
    callback is a closure over the server; it is given the time at which it
    runs. *)
Record TimeEvent := mkTimeEvent {
  callback : Z → World → World;
  when : Z;
  interval : Z;
  periodic : bool
}.

(** Modelled from the spec: [NewPeriodTimeEvent] of time_event.go (absent). *)
Definition NewPeriodTimeEvent (f : Z → World → World) (at_ : Z) (every : Z)
  : TimeEvent := mkTimeEvent f at_ every true.

(** Modelled from the spec: [NewTimeEventList] and
    [TimeEventList.AddTimeEvent] of time_event.go (absent). *)
Definition NewTimeEventList : list TimeEvent := [].

Definition AddTimeEvent (e : TimeEvent) (l : list TimeEvent) : list TimeEvent :=
  l ++ [e].

Definition due (now : Z) (e : TimeEvent) : Prop := when e ≤ Unix now.

#[global] Instance due_dec now e : Decision (due now e).
Proof. unfold due. apply _. Defined.

(** Modelled from the spec: [TimeEventList.ExecuteOneIfExpire] of
    time_event.go (absent): the first event that is due runs, and no other;
    a periodic event is re-armed to now plus its interval, a one-shot event
    leaves the list.  The result also tells which callbacks ran. *)
Fixpoint ExecuteOneIfExpire (now : Z) (l : list TimeEvent) (w : World)
  : list TimeEvent * World * list TimeEvent :=
  match l with
  | [] => ([], w, [])
  | e :: l' =>
      if decide (due now e) then
        let rest :=
          if periodic e
          then mkTimeEvent (callback e) (Unix (now + interval e)) (interval e) true :: l'
          else l' in
        (rest, callback e now w, [e])
      else
        let '(l'', w', ran) := ExecuteOneIfExpire now l' w in
        (e :: l'', w', ran)
  end.

(** *** The server and its goroutines *)

(** The lines the connection handler logs. *)
Inductive LogLine :=
  | PeerShutDown | ReadError (e : string) | ParseCommandError
  | WriteError | GoroutineExit.

(** What the goroutines do, in the order they do it. *)
Inductive Action :=
  | A_log (c : ClientId) (l : LogLine)
  | A_cmd (c : ClientId) (k : option Command)   (* client.cmd = array.ToCommand() *)
  | A_send (c : ClientId) (k : option Command)  (* s.commands <- client, with client.cmd as it is then *)
  | A_write (c : ClientId) (r : list byte)      (* conn.Write([]byte(r)) *)
  | A_error (c : ClientId)                      (* client.status = ERROR; client.cmd = nil *)
  | A_close (c : ClientId)                      (* conn.Close() *)
  | A_recv (c : ClientId)                       (* cli := <-s.commands *)
  | A_remove (c : ClientId)                     (* s.clis.RemoveClient(cli) *)
  | A_register (c : ClientId) (new : bool)      (* s.clis.AddClientIfNotExist(cli) *)
  | A_touch (c : ClientId) (now : Z)            (* cli.UpdateTimestamp() *)
  | A_get (c : ClientId) (d : DbRef) (k : Command)  (* cmd.Get(cli.db, cli.cmd) *)
  | A_set (c : ClientId) (d : DbRef) (k : Command)  (* cmd.Set(cli.db, cli.cmd) *)
  | A_reply (c : ClientId) (r : list byte)      (* cli.res <- string(res.ToBytes()) *)
  | A_timer (ran : nat).                        (* s.tl.ExecuteOneIfExpire() *)

(** Where a connection handler stands in [handleRead]. *)
Inductive PC :=
  | AtSelect      (* line 49, in the loop *)
  | AtSend        (* line 74 *)
  | AtExit        (* line 94, the loop has ended *)
  | AtFinalSend   (* line 100 *)
  | AtClose       (* line 103 *)
  | Finished.

(** The [Server] struct ([dbs], [clis], [tl], [commands]; [dbNum] is the
    length of [dbs], [url] is not used by the core), the records it points
    to, the handlers [Start] has spawned and the actions so far. *)
Record State := mkState {
  world : World;
  tl : list TimeEvent;
  commands : Chan ClientId;
  dbs : list DbRef;
  handlers : gmap ClientId PC;
  trace : list Action
}.

Definition set_world (w : World) (s : State) : State :=
  mkState w (tl s) (commands s) (dbs s) (handlers s) (trace s).
Definition set_tl (l : list TimeEvent) (s : State) : State :=
  mkState (world s) l (commands s) (dbs s) (handlers s) (trace s).
Definition set_commands (ch : Chan ClientId) (s : State) : State :=
  mkState (world s) (tl s) ch (dbs s) (handlers s) (trace s).
Definition set_pc (c : ClientId) (p : PC) (s : State) : State :=
  mkState (world s) (tl s) (commands s) (dbs s) (<[c := p]> (handlers s)) (trace s).
Definition emit (a : list Action) (s : State) : State :=
  mkState (world s) (tl s) (commands s) (dbs s) (handlers s) (trace s ++ a).
Definition set_client (c : ClientId) (cli : Client) (s : State) : State :=
  set_world (set_clients (<[c := cli]> (clients (world s))) (world s)) s.

Fixpoint new_dbs (n : nat) (st : Store) : Store * list DbRef :=
  match n with
  | O => (st, [])
  | S n' =>
      let '(st1, d) := NewDataBase st in
      let '(st2, ds) := new_dbs n' st1 in
      (st2, d :: ds)
  end.

Definition NewServer (st : Store) : State :=
  let '(st', d) := new_dbs 2 st in
  mkState (mkWorld ∅ st' NewClientList) NewTimeEventList (make_chan 1000) d ∅ [].

(** **** [handleRead] *)

(** One frame from [resp.ParseStream]: an error with its message, an array,
    or data of another kind. *)
Inductive Parsed := PErr (e : string) | PArray (a : ArrayData) | POther.

(** The branch of the [select] that fires. *)
Inductive HEvent :=
  | FromCh (p : Parsed)         (* case parsed := <-ch *)
  | FromRes (write_err : bool)  (* case r := <-client.res, and whether conn.Write fails *)
  | FromExit.                   (* case <-client.exit *)

Inductive HStep :=
  | HSelect (ev : HEvent)       (* one pass through the select *)
  | HSend                       (* s.commands <- client *)
  | HExit                       (* lines 94 to 98 *)
  | HClose (err : bool).        (* lines 103 to 108, and whether conn.Close fails *)

(** [s.commands <- client] by handler [c], then on to [next]. *)
Definition send_client (c : ClientId) (cli : Client) (next : PC) (s : State)
  : option State :=
  ch ← chan_send c (commands s);
  Some (set_pc c next (emit [A_send c (cmd cli)] (set_commands ch s))).

(** One step of the handler of session [c]; [None] when the step cannot be
    taken where the handler stands (a channel that is not ready included). *)
Definition handler_step (c : ClientId) (st : HStep) (s : State) : option State :=
  p ← handlers s !! c;
  cli ← clients (world s) !! c;
  match p, st with
  | AtSelect, HSelect (FromCh (PErr e)) =>
      let l := if decide (e = "EOF"%string) then PeerShutDown else ReadError e in
      Some (set_pc c AtExit (emit [A_log c l] s))
  | AtSelect, HSelect (FromCh POther) =>
      Some (set_pc c AtExit (emit [A_log c ParseCommandError] s))
  | AtSelect, HSelect (FromCh (PArray a)) =>
      let k := ToCommand a in
      Some (set_pc c AtSend (emit [A_cmd c k] (set_client c (set_cmd k cli) s)))
  | AtSelect, HSelect (FromRes write_err) =>
      '(r, rch) ← chan_recv (res cli);
      let s1 := set_client c (set_res rch cli) s in
      if write_err
      then Some (set_pc c AtExit (emit [A_log c WriteError] s1))
      else Some (emit [A_write c r] s1)
  | AtSelect, HSelect FromExit => Some (set_pc c AtExit s)
  | AtSend, HSend => send_client c cli AtSelect s
  | AtExit, HExit =>
      if decide (status cli ≠ EXIT) then
        Some (set_pc c AtFinalSend
                (emit [A_error c] (set_client c (set_cmd None (set_status ERROR cli)) s)))
      else Some (set_pc c AtClose s)
  | AtFinalSend, HSend => send_client c cli AtClose s
  | AtClose, HClose err =>
      Some (set_pc c Finished
              (emit (A_close c :: if err then [] else [A_log c GoroutineExit]) s))
  | _, _ => None
  end.

Definition pc_of (c : ClientId) (s : State) : option PC := handlers s !! c.

(** The loop of [handleRead] fed with the select branches [evs]: each pass
    through the select, and the send that follows a parsed array. *)
Fixpoint handleRead_loop (c : ClientId) (evs : list HEvent) (s : State)
  : option State :=
  match evs with
  | [] => Some s
  | ev :: evs' =>
      match pc_of c s with
      | Some AtSelect =>
          s1 ← handler_step c (HSelect ev) s;
          s2 ← match pc_of c s1 with
               | Some AtSend => handler_step c HSend s1
               | _ => Some s1
               end;
          handleRead_loop c evs' s2
      | _ => Some s
      end
  end.

(** What [handleRead] does once the loop has ended. *)
Definition handleRead_exit (c : ClientId) (close_err : bool) (s : State)
  : option State :=
  s1 ← handler_step c HExit s;
  s2 ← match pc_of c s1 with
       | Some AtFinalSend => handler_step c HSend s1
       | _ => Some s1
       end;
  handler_step c (HClose close_err) s2.

(** The state in which [handleRead] returns when the loop has ended with the
    session not [EXIT] and the hand-off queue has room. *)
Definition after_error_exit (c : ClientId) (cli : Client) (err : bool) (s : State)
  : State :=
  set_pc c Finished
    (emit (A_close c :: if err then [] else [A_log c GoroutineExit])
       (set_pc c AtClose
          (emit [A_send c None]
             (set_commands (mkChan (cap (commands s)) (buf (commands s) ++ [c]))
                (set_pc c AtFinalSend
                   (emit [A_error c]
                      (set_client c (set_cmd None (set_status ERROR cli)) s))))))).

(** [handleRead] run alone on the select branches [evs]; [None] when it does
    not return: it waits in the select for more, or on a full channel. *)
Definition handleRead (c : ClientId) (evs : list HEvent) (close_err : bool)
  (s : State) : option State :=
  s1 ← handleRead_loop c evs s;
  match pc_of c s1 with
  | Some AtExit => handleRead_exit c close_err s1
  | _ => None
  end.

(** [Start] accepts a connection and spawns its handler, which creates the
    session on [s.dbs[0]] and enters the loop. *)
Definition accept (c : ClientId) (now : Z) (s : State) : option State :=
  if decide (clients (world s) !! c = None ∧ handlers s !! c = None) then
    d ← dbs s !! 0%nat;
    Some (set_pc c AtSelect (set_client c (NewClient d now) s))
  else None.

(** **** [eventLoop] *)

(** The callback registered at start-up. *)
Definition reap (now : Z) (w : World) : World :=
  RemoveLongNotUsed 1 (300 * Second) now w.

(** Lines 114 to 119, run at time [now]. *)
Definition eventLoop_init (now : Z) (s : State) : State :=
  set_tl (AddTimeEvent
            (NewPeriodTimeEvent reap (Unix (now + 300 * Second)) (300 * Second))
            (tl s)) s.

(** The branch of the event loop's [select] that fires, and the time. *)
Inductive Select := TimerC (now : Z) | CommandsC (now : Z).

(** Lines 169 to 174. *)
Definition execute (c : ClientId) (cli : Client) (k : Command) (st : Store)
  : Store * RedisData * Action :=
  if decide (length k = 2%nat)
  then (cmd_Get (db cli) k st, A_get c (db cli) k)
  else (cmd_Set (db cli) k st, A_set c (db cli) k).

(** One iteration of the [for] loop; [None] when the chosen branch is not
    ready or the reply channel is full. *)
Definition eventLoop_iter (sel : Select) (s : State) : option State :=
  match sel with
  | TimerC now =>
      let '(l, w, ran) := ExecuteOneIfExpire now (tl s) (world s) in
      Some (emit [A_timer (length ran)] (set_world w (set_tl l s)))
  | CommandsC now =>
      '(c, ch) ← chan_recv (commands s);
      cli ← clients (world s) !! c;
      let s1 := emit [A_recv c] (set_commands ch s) in
      match cmd cli with
      | None => Some s1
      | Some k =>
          if decide (status cli = ERROR ∨ status cli = EXIT) then
            Some (emit [A_remove c]
                    (set_world (set_clis (RemoveClient c (clis (world s1))) (world s1)) s1))
          else
            let '(r, ok) := AddClientIfNotExist c (clis (world s1)) in
            let cli1 := UpdateTimestamp now cli in
            let '(st, reply, ran) := execute c cli1 k (store (world s1)) in
            rch ← chan_send (ToBytes reply) (res cli1);
            let w := mkWorld (<[c := set_res rch cli1]> (clients (world s1))) st r in
            Some (emit [A_register c ok; A_touch c now; ran; A_reply c (ToBytes reply)]
                    (set_world w s1))
      end
  end.

Fixpoint eventLoop_run (sels : list Select) (s : State) : option State :=
  match sels with
  | [] => Some s
  | sel :: sels' => s1 ← eventLoop_iter sel s; eventLoop_run sels' s1
  end.

(** [eventLoop] started at [now], followed through the select branches
    [sels]. *)
Definition eventLoop (now : Z) (sels : list Select) (s : State) : option State :=
  eventLoop_run sels (eventLoop_init now s).

(** **** [Start]: the goroutines together *)

Inductive Label :=
  | LAccept (c : ClientId) (now : Z)
  | LHandler (c : ClientId) (st : HStep)
  | LLoop (sel : Select).

Definition sys_step (l : Label) (s : State) : option State :=
  match l with
  | LAccept c now => accept c now s
  | LHandler c st => handler_step c st s
  | LLoop sel => eventLoop_iter sel s
  end.

Fixpoint run (ls : list Label) (s : State) : option State :=
  match ls with
  | [] => Some s
  | l :: ls' => s1 ← sys_step l s; run ls' s1
  end.

(** [Start] at time [now] on a fresh server, once the logger and the
    listener are set up, followed along one interleaving [ls] of the accept
    loop, the handlers and the event loop.  A step of a handler is one
    statement of [handleRead] that touches shared state; a step of the event
    loop is one iteration, taken when its select branch is ready and, for a
    command, when the reply channel has room. *)
Definition Start (now : Z) (ls : list Label) (st : Store) : option State :=
  run ls (eventLoop_init now (NewServer st)).

(** **** Reading the trace *)

Definition is_send (a : Action) : option (ClientId * option Command) :=
  match a with A_send c k => Some (c, k) | _ => None end.
Definition is_recv (a : Action) : option ClientId :=
  match a with A_recv c => Some c | _ => None end.
Definition is_exec (a : Action) : option (ClientId * Command) :=
  match a with A_get c _ k | A_set c _ k => Some (c, k) | _ => None end.

(** The notifications put on the hand-off queue, oldest first. *)
Definition sent (s : State) : list ClientId := fst <$> omap is_send (trace s).
(** The notifications the event loop has taken from it. *)
Definition received (s : State) : list ClientId := omap is_recv (trace s).
(** The commands run, each with its session. *)
Definition executed (s : State) : list (ClientId * Command) :=
  omap is_exec (trace s).








End model.

(** *** A small instance to run the model on

    The key-value heap counts the databases made and logs the writes; a read
    answers [get], a write answers [ok]. *)

Definition bytes (s : string) : list byte := String.list_byte_of_string s.

Definition demo_store : Type := nat * list (nat * Command).

#[global] Instance demo : Collaborators := {|
  Store := demo_store;
  DbRef := nat;
  RedisData := list byte;
  ArrayData := Command;
  NewDataBase st := ((S (fst st), snd st), fst st);
  cmd_Get d k st := (st, bytes "get");
  cmd_Set d k st := ((fst st, snd st ++ [(d, k)]), bytes "ok");
  ToBytes r := r;
  ToCommand a := Some a
|}.

Definition demo_init : demo_store := (O, []).

Definition GET_a : Command := [bytes "GET"; bytes "a"].
Definition SET_a_1 : Command := [bytes "SET"; bytes "a"; bytes "1"].

(** One client connects, sends [GET a], reads the reply and hangs up; the
    handler reports it and the event loop takes the report. *)
Definition hangup_run : list Label :=
  [ LAccept 1 0;
    LHandler 1 (HSelect (FromCh (PArray GET_a)));
    LHandler 1 HSend;
    LLoop (CommandsC 1);
    LHandler 1 (HSelect (FromRes false));
    LHandler 1 (HSelect (FromCh (PErr "EOF")));
    LHandler 1 HExit;
    LHandler 1 HSend;
    LHandler 1 (HClose false);
    LLoop (CommandsC 2) ].


(** The state in which the event loop finds the report of the hang-up. *)
Definition hangup_state : State :=
  default (NewServer demo_init) (Start 0 (take 9 hangup_run) demo_init).

(** The state of a session just accepted. *)
Definition accepted_state : State :=
  default (NewServer demo_init) (Start 0 [LAccept 1 0] demo_init).


(** The state in which the handler of a fresh session has just left its
    loop on [EOF]. *)
Definition eof_state : State :=
  default (NewServer demo_init)
    (Start 0 [LAccept 1 0; LHandler 1 (HSelect (FromCh (PErr "EOF")))] demo_init).


(** A server with two more periodic events, both due at second 400 together
    with the reaper; each changes the key-value heap in its own way. *)
Definition mark (n : nat) (now : Z) (w : World) : World :=
  set_store (fst (store w), snd (store w) ++ [(n, [])]) w.

Definition three_due_state : State :=
  set_tl (tl (eventLoop_init 0 (NewServer demo_init))
            ++ [NewPeriodTimeEvent (mark 7) 10 (60 * Second);
                NewPeriodTimeEvent (mark 8) 20 (60 * Second)])
    (eventLoop_init 0 (NewServer demo_init)).

(** * Facts *)

Section facts.
Context `{K : Collaborators}.
Implicit Types (s : State) (c : ClientId) (cli : Client) (k : Command).

(** ** Channels *)

Lemma chan_send_room {A} (x : A) (ch : Chan A) :
  (length (buf ch) < cap ch)%nat →
  chan_send x ch = Some (mkChan (cap ch) (buf ch ++ [x])).
Proof. intros H. unfold chan_send. by rewrite decide_True. Qed.

Lemma chan_send_full {A} (x : A) (ch : Chan A) :
  ¬ (length (buf ch) < cap ch)%nat → chan_send x ch = None.
Proof. intros H. unfold chan_send. by rewrite decide_False. Qed.



(** ** The event loop on one notification *)

(** C1, as the code has it: a notification whose session carries no command
    is taken from the queue and nothing else happens, whatever the status of
    the session: the registry, the key-value heap and the session records are
    as before, and the trace gains the receive alone.  The test on the
    command comes before the test on the status, so a session reported
    [ERROR] or [EXIT] with no command stays registered. *)
Theorem eventLoop_no_command_only_dequeues s c ch cli now :
  chan_recv (commands s) = Some (c, ch) →
  clients (world s) !! c = Some cli →
  cmd cli = None →
  ∃ s', eventLoop_iter (CommandsC now) s = Some s'
      ∧ world s' = world s
      ∧ commands s' = ch
      ∧ trace s' = trace s ++ [A_recv c]
      ∧ executed s' = executed s
      ∧ (c ∈ clis (world s) → c ∈ clis (world s')).
Proof.
  intros Hr Hc Hk. unfold eventLoop_iter. rewrite Hr. simpl. rewrite Hc. simpl.
  rewrite Hk. eexists. split; [reflexivity|]. simpl.
  repeat split; try done.
  unfold executed. simpl. rewrite omap_app. simpl. by rewrite app_nil_r.
Qed.




(** ** The connection handler *)

Lemma handleRead_loop_stopped c evs s :
  pc_of c s ≠ Some AtSelect → handleRead_loop c evs s = Some s.
Proof.
  intros Hp. destruct evs as [|ev evs]; [done|]. simpl.
  destruct (pc_of c s) as [[]|]; done.
Qed.

Lemma handleRead_loop_app c evs1 evs2 s :
  handleRead_loop c (evs1 ++ evs2) s =
  handleRead_loop c evs1 s ≫= handleRead_loop c evs2.
Proof.
  revert s. induction evs1 as [|ev evs1 IH]; intros s; [done|].
  simpl. destruct (pc_of c s) as [p|] eqn:Hp.
  - destruct p; simpl;
      try (symmetry; apply handleRead_loop_stopped; by rewrite Hp).
    destruct (handler_step c (HSelect ev) s) as [s1|]; [simpl|done].
    destruct (match pc_of c s1 with
              | Some AtSend => handler_step c HSend s1
              | _ => Some s1
              end) as [s2|]; [simpl|done].
    apply IH.
  - simpl. symmetry. apply handleRead_loop_stopped. by rewrite Hp.
Qed.

Lemma pc_of_set_pc c p s : pc_of c (set_pc c p s) = Some p.
Proof. unfold pc_of. simpl. apply lookup_insert_eq. Qed.

Lemma handler_step_at c st s p cli :
  pc_of c s = Some p →
  clients (world s) !! c = Some cli →
  handler_step c st s =
  match p, st with
  | AtSelect, HSelect (FromCh (PErr e)) =>
      let l := if decide (e = "EOF"%string) then PeerShutDown else ReadError e in
      Some (set_pc c AtExit (emit [A_log c l] s))
  | AtSelect, HSelect (FromCh POther) =>
      Some (set_pc c AtExit (emit [A_log c ParseCommandError] s))
  | AtSelect, HSelect (FromCh (PArray a)) =>
      let k := ToCommand a in
      Some (set_pc c AtSend (emit [A_cmd c k] (set_client c (set_cmd k cli) s)))
  | AtSelect, HSelect (FromRes write_err) =>
      '(r, rch) ← chan_recv (res cli);
      let s1 := set_client c (set_res rch cli) s in
      if write_err
      then Some (set_pc c AtExit (emit [A_log c WriteError] s1))
      else Some (emit [A_write c r] s1)
  | AtSelect, HSelect FromExit => Some (set_pc c AtExit s)
  | AtSend, HSend => send_client c cli AtSelect s
  | AtExit, HExit =>
      if decide (status cli ≠ EXIT) then
        Some (set_pc c AtFinalSend
                (emit [A_error c] (set_client c (set_cmd None (set_status ERROR cli)) s)))
      else Some (set_pc c AtClose s)
  | AtFinalSend, HSend => send_client c cli AtClose s
  | AtClose, HClose err =>
      Some (set_pc c Finished
              (emit (A_close c :: if err then [] else [A_log c GoroutineExit]) s))
  | _, _ => None
  end.
Proof. unfold pc_of, handler_step. intros -> ->. done. Qed.

Lemma client_set_client c cli s : clients (world (set_client c cli s)) !! c = Some cli.
Proof. simpl. apply lookup_insert_eq. Qed.

Lemma handleRead_exit_not_EXIT c s cli err :
  pc_of c s = Some AtExit →
  clients (world s) !! c = Some cli →
  status cli ≠ EXIT →
  (length (buf (commands s)) < cap (commands s))%nat →
  handleRead_exit c err s = Some (after_error_exit c cli err s).
Proof.
  intros Hp Hc Hs Hroom. unfold handleRead_exit.
  rewrite (handler_step_at _ _ _ _ _ Hp Hc). rewrite decide_True by done.
  simpl. rewrite pc_of_set_pc.
  erewrite handler_step_at; [|apply pc_of_set_pc|apply client_set_client].
  unfold send_client. simpl. rewrite (chan_send_room _ (commands s)) by done.
  simpl.
  erewrite handler_step_at; [|apply pc_of_set_pc|apply client_set_client].
  reflexivity.
Qed.

Lemma handleRead_exit_blocked c s cli err :
  pc_of c s = Some AtExit →
  clients (world s) !! c = Some cli →
  status cli ≠ EXIT →
  ¬ (length (buf (commands s)) < cap (commands s))%nat →
  handleRead_exit c err s = None.
Proof.
  intros Hp Hc Hs Hroom. unfold handleRead_exit.
  rewrite (handler_step_at _ _ _ _ _ Hp Hc). rewrite decide_True by done.
  simpl. rewrite pc_of_set_pc.
  erewrite handler_step_at; [|apply pc_of_set_pc|apply client_set_client].
  unfold send_client. simpl. by rewrite (chan_send_full _ (commands s)).
Qed.

Lemma handleRead_exit_EXIT c s cli err :
  pc_of c s = Some AtExit →
  clients (world s) !! c = Some cli →
  status cli = EXIT →
  handleRead_exit c err s =
  Some (set_pc c Finished
          (emit (A_close c :: if err then [] else [A_log c GoroutineExit])
             (set_pc c AtClose s))).
Proof.
  intros Hp Hc Hs. unfold handleRead_exit.
  rewrite (handler_step_at _ _ _ _ _ Hp Hc).
  rewrite decide_False by (intros H; by apply H).
  simpl. rewrite pc_of_set_pc. simpl.
  erewrite handler_step_at; [|apply pc_of_set_pc|exact Hc].
  reflexivity.
Qed.

(** C3: once the loop of the handler has ended, a session that is not
    [EXIT] is set to [ERROR] with its pending command cleared, one
    notification (with no command) is put on the hand-off queue, and the
    socket is closed; a session that is [EXIT] is left as it is, nothing is
    sent, and the socket is closed.  While the queue is full the handler
    waits at the send. *)
Theorem handleRead_after_loop c s cli err :
  pc_of c s = Some AtExit →
  clients (world s) !! c = Some cli →
  (status cli ≠ EXIT →
     ((length (buf (commands s)) < cap (commands s))%nat →
      ∃ s', handleRead_exit c err s = Some s'
        ∧ clients (world s') !! c = Some (mkClient (db cli) ERROR (tp cli) None (res cli))
        ∧ buf (commands s') = buf (commands s) ++ [c]
        ∧ sent s' = sent s ++ [c]
        ∧ trace s' = trace s ++ [A_error c; A_send c None; A_close c]
                       ++ (if err then [] else [A_log c GoroutineExit])
        ∧ pc_of c s' = Some Finished)
     ∧ (¬ (length (buf (commands s)) < cap (commands s))%nat →
        handleRead_exit c err s = None))
  ∧ (status cli = EXIT →
     ∃ s', handleRead_exit c err s = Some s'
        ∧ world s' = world s
        ∧ commands s' = commands s
        ∧ sent s' = sent s
        ∧ trace s' = trace s ++ A_close c :: (if err then [] else [A_log c GoroutineExit])
        ∧ pc_of c s' = Some Finished).
Proof.
  intros Hp Hc. split; [intros Hs; split|intros Hs].
  - intros Hroom. exists (after_error_exit c cli err s).
    split; [by apply handleRead_exit_not_EXIT|].
    unfold after_error_exit, pc_of. simpl. rewrite !lookup_insert_eq.
    split_and!; try done.
    + unfold sent. simpl. rewrite !omap_app, !fmap_app. simpl.
      destruct err; simpl; by rewrite ?app_nil_r, <- ?app_assoc.
    + by rewrite <- !app_assoc.
  - intros Hfull. by apply (handleRead_exit_blocked c s cli).
  - eexists. split; [by apply (handleRead_exit_EXIT c s cli)|].
    unfold pc_of. simpl. rewrite lookup_insert_eq. split_and!; try done.
    unfold sent. simpl. rewrite omap_app, fmap_app. simpl.
    destruct err; simpl; by rewrite app_nil_r.
Qed.

(** C2, as the code has it: when the frame source yields an error, be it
    [EOF] or any other, the loop ends; a session that is not [EXIT] already
    ends [ERROR] in both cases ([EOF] is told apart in the log line only),
    its report is put on the hand-off queue and the connection is closed. *)
Theorem handleRead_frame_error c evs s0 s cli e err :
  handleRead_loop c evs s0 = Some s →
  pc_of c s = Some AtSelect →
  clients (world s) !! c = Some cli →
  status cli ≠ EXIT →
  (length (buf (commands s)) < cap (commands s))%nat →
  ∃ s', handleRead c (evs ++ [FromCh (PErr e)]) err s0 = Some s'
      ∧ clients (world s') !! c = Some (mkClient (db cli) ERROR (tp cli) None (res cli))
      ∧ trace s' = trace s ++
          [A_log c (if decide (e = "EOF"%string) then PeerShutDown else ReadError e);
           A_error c; A_send c None; A_close c]
          ++ (if err then [] else [A_log c GoroutineExit])
      ∧ pc_of c s' = Some Finished.
Proof.
  intros Hloop Hp Hc Hs Hroom.
  set (l := if decide (e = "EOF"%string) then PeerShutDown else ReadError e).
  set (s1 := set_pc c AtExit (emit [A_log c l] s)).
  assert (H1 : handleRead_loop c (evs ++ [FromCh (PErr e)]) s0 = Some s1).
  { rewrite handleRead_loop_app, Hloop. simpl. rewrite Hp.
    rewrite (handler_step_at _ _ _ _ _ Hp Hc). simpl. by rewrite pc_of_set_pc. }
  exists (after_error_exit c cli err s1).
  split.
  - unfold handleRead. rewrite H1. simpl.
    assert (Hp1 : pc_of c s1 = Some AtExit).
    { unfold pc_of, s1. simpl. by rewrite lookup_insert_eq. }
    rewrite Hp1. by apply handleRead_exit_not_EXIT.
  - unfold after_error_exit, pc_of, s1. simpl. rewrite !lookup_insert_eq.
    split_and!; try done. by rewrite <- !app_assoc.
Qed.

(** ** Time events *)

Lemma ExecuteOneIfExpire_cases now l w :
  ∃ l' w' ran,
    ExecuteOneIfExpire now l w = (l', w', ran)
  ∧ ((ran = [] ∧ w' = w ∧ l' = l ∧ Forall (λ e, ¬ due now e) l)
     ∨ (∃ e, ran = [e] ∧ e ∈ l ∧ due now e ∧ w' = callback e now w
           ∧ (length (filter (due now) l) ≤ S (length (filter (due now) l')))%nat)).
Proof.
  induction l as [|e l IH]; simpl.
  - exists [], w, []. split; [done|]. left. by repeat constructor.
  - case_decide as Hd.
    + eexists _, _, _. split; [reflexivity|]. right. exists e.
      split_and!; try done; [by left|].
      rewrite filter_cons_True by done. simpl.
      destruct (periodic e); [|lia].
      rewrite filter_cons. case_decide; simpl; lia.
    + destruct IH as (l' & w' & ran & Heq & Hcases). rewrite Heq.
      exists (e :: l'), w', ran. split; [done|].
      destruct Hcases as [(-> & -> & -> & Hall) | (e' & -> & Hin & Hdue & -> & Hlen)].
      * left. split_and!; try done. by constructor.
      * right. exists e'. split_and!; try done; [by right|].
        by rewrite !filter_cons_False by done.
Qed.

(** C6: a firing of the timer makes the event loop call
    [ExecuteOneIfExpire] once, and that runs one callback at most: either no
    event of the list is due and nothing changes, or the callback of one due
    event runs, once; of the events due, all but one at most are still due
    afterwards, so with two or more due at the tick one runs and the others
    wait. *)
Theorem eventLoop_tick_runs_at_most_one s now :
  ∃ s' ran,
    eventLoop_iter (TimerC now) s = Some s'
  ∧ trace s' = trace s ++ [A_timer (length ran)]
  ∧ (length ran ≤ 1)%nat
  ∧ (ran = [] → world s' = world s ∧ tl s' = tl s
               ∧ Forall (λ e, ¬ due now e) (tl s))
  ∧ (∀ e, ran = [e] → e ∈ tl s ∧ due now e
                     ∧ world s' = callback e now (world s))
  ∧ (length (filter (due now) (tl s))
       ≤ S (length (filter (due now) (tl s'))))%nat
  ∧ ((2 ≤ length (filter (due now) (tl s)))%nat →
       length ran = 1%nat ∧ ∃ e, e ∈ tl s' ∧ due now e)
  ∧ commands s' = commands s.
Proof.
  destruct (ExecuteOneIfExpire_cases now (tl s) (world s))
    as (l' & w' & ran & Heq & Hcases).
  unfold eventLoop_iter. rewrite Heq. eexists _, ran. split; [reflexivity|].
  simpl. split; [done|].
  destruct Hcases as [(-> & -> & -> & Hall) | (e & -> & Hin & Hdue & -> & Hlen)].
  - split_and!; try done; simpl; try lia.
    intros H2. exfalso.
    assert (Hnil : filter (due now) (tl s) = []).
    { clear H2 Heq. induction Hall as [|x l Hx _ IH]; [done|].
      by rewrite filter_cons_False. }
    rewrite Hnil in H2. simpl in H2. lia.
  - split_and!; try done; simpl; try lia.
    + intros e' [= <-]. done.
    + intros H2. split; [done|].
      destruct (filter (due now) l') as [|e' r] eqn:Hf; [simpl in Hlen; lia|].
      exists e'. apply and_comm, (list_elem_of_filter (due now) l' e').
      rewrite Hf. by left.
Qed.

Lemma Unix_add_seconds now n : Unix (now + n * Second) = Unix now + n.
Proof. unfold Unix. by rewrite Z.div_add. Qed.

(** C7: at start-up the event loop registers one time event, and on a fresh
    server it is the only one: it is periodic, it first fires 300 seconds
    after the start, it fires again every 300 seconds, and its callback is
    the sweep of the registry with the threshold of 300 seconds, which takes
    out the registered sessions idle for 300 seconds or more and keeps the
    others, leaving the session records and the key-value heap alone. *)
Theorem eventLoop_init_registers_reaper now s st :
  ∃ e,
    tl (eventLoop_init now s) = tl s ++ [e]
  ∧ tl (eventLoop_init now (NewServer st)) = [e]
  ∧ periodic e = true
  ∧ when e = Unix now + 300
  ∧ interval e = 300 * Second
  ∧ (∀ t w, callback e t w = RemoveLongNotUsed 1 (300 * Second) t w)
  ∧ (∀ t w c, c ∈ clis (callback e t w)
              ↔ c ∈ clis w ∧ ¬ idle_for (300 * Second) t w c)
  ∧ (∀ t w, clients (callback e t w) = clients w
            ∧ store (callback e t w) = store w)
  ∧ world (eventLoop_init now s) = world s
  ∧ commands (eventLoop_init now s) = commands s.
Proof.
  exists (NewPeriodTimeEvent reap (Unix (now + 300 * Second)) (300 * Second)).
  split_and!; try done.
  - unfold NewServer. destruct (new_dbs 2 st). done.
  - simpl. apply Unix_add_seconds.
  - intros t w c. simpl. unfold reap, RemoveLongNotUsed. simpl.
    rewrite elem_of_filter. tauto.
Qed.

(** ** The goroutines together *)














(** *** One notification in flight per session *)














End facts.

(** ** The model run on the small instance *)

(** The report of a hang-up is taken and the session stays registered. *)
Example hangup_leaves_session_registered :
  (s ← Start 0 hangup_run demo_init;
   cli ← clients (world s) !! 1%positive;
   Some (status cli, cmd cli, bool_decide (1%positive ∈ clis (world s)),
         buf (commands s), received s)) =
  Some (ERROR, None, true, [], [1%positive; 1%positive]).
Proof. vm_compute. reflexivity. Qed.

Lemma eventLoop_no_command_witness :
  ∃ s', eventLoop_iter (CommandsC 2) hangup_state = Some s'
      ∧ world s' = world hangup_state
      ∧ commands s' = mkChan 1000 []
      ∧ trace s' = trace hangup_state ++ [A_recv 1]
      ∧ executed s' = executed hangup_state
      ∧ (1%positive ∈ clis (world hangup_state) → 1%positive ∈ clis (world s')).
Proof.
  apply (eventLoop_no_command_only_dequeues hangup_state 1 (mkChan 1000 [])
           (@mkClient demo 0%nat ERROR 1 None (mkChan 1 [])) 2);
    vm_compute; reflexivity.
Defined.

(** C2 as stated fails: a session just accepted whose peer shuts down ends
    [ERROR], not [EXIT]. *)
Lemma handleRead_EOF_ends_ERROR :
  ∃ s' cli,
      handleRead 1 [FromCh (PErr "EOF")] false accepted_state = Some s'
    ∧ clients (world s') !! 1%positive = Some cli
    ∧ status cli = ERROR
    ∧ status cli ≠ EXIT
    ∧ trace s' = [A_log 1 PeerShutDown; A_error 1; A_send 1 None; A_close 1;
                  A_log 1 GoroutineExit].
Proof.
  eexists _, (@mkClient demo 0%nat ERROR 0 None (mkChan 1 [])).
  split; [vm_compute; reflexivity|]. split; [vm_compute; reflexivity|].
  split; [reflexivity|]. split; [discriminate|]. vm_compute. reflexivity.
Qed.

Lemma handleRead_frame_error_witness :
  ∃ s', handleRead 1 ([] ++ [FromCh (PErr "connection reset")]) false accepted_state
        = Some s'
      ∧ clients (world s') !! 1%positive
        = Some (@mkClient demo 0%nat ERROR 0 None (mkChan 1 []))
      ∧ trace s' = trace accepted_state ++
          [A_log 1 (if decide ("connection reset" = "EOF")%string
                    then PeerShutDown else ReadError "connection reset");
           A_error 1; A_send 1 None; A_close 1]
          ++ [A_log 1 GoroutineExit]
      ∧ pc_of 1 s' = Some Finished.
Proof.
  apply (handleRead_frame_error 1 [] accepted_state accepted_state
           (@NewClient demo 0%nat 0) "connection reset" false).
  - reflexivity.
  - vm_compute. reflexivity.
  - vm_compute. reflexivity.
  - discriminate.
  - vm_compute. lia.
Defined.

Lemma handleRead_after_loop_witness :
  (status (@NewClient demo 0%nat 0) ≠ EXIT →
     ((length (buf (commands eof_state)) < cap (commands eof_state))%nat →
      ∃ s', handleRead_exit 1 false eof_state = Some s'
        ∧ clients (world s') !! 1%positive
          = Some (@mkClient demo 0%nat ERROR 0 None (mkChan 1 []))
        ∧ buf (commands s') = buf (commands eof_state) ++ [1%positive]
        ∧ sent s' = sent eof_state ++ [1%positive]
        ∧ trace s' = trace eof_state ++ [A_error 1; A_send 1 None; A_close 1]
                       ++ [A_log 1 GoroutineExit]
        ∧ pc_of 1 s' = Some Finished)
     ∧ (¬ (length (buf (commands eof_state)) < cap (commands eof_state))%nat →
        handleRead_exit 1 false eof_state = None))
  ∧ (status (@NewClient demo 0%nat 0) = EXIT →
     ∃ s', handleRead_exit 1 false eof_state = Some s'
        ∧ world s' = world eof_state
        ∧ commands s' = commands eof_state
        ∧ sent s' = sent eof_state
        ∧ trace s' = trace eof_state ++ [A_close 1; A_log 1 GoroutineExit]
        ∧ pc_of 1 s' = Some Finished).
Proof.
  apply (handleRead_after_loop 1 eof_state (@NewClient demo 0%nat 0) false);
    vm_compute; reflexivity.
Defined.



(** Both routes, run. *)
Example routes_run :
  (s ← Start 0 [LAccept 1 0;
                LHandler 1 (HSelect (FromCh (PArray GET_a))); LHandler 1 HSend;
                LLoop (CommandsC 1); LHandler 1 (HSelect (FromRes false));
                LHandler 1 (HSelect (FromCh (PArray SET_a_1))); LHandler 1 HSend;
                LLoop (CommandsC 2); LHandler 1 (HSelect (FromRes false));
                LHandler 1 (HSelect (FromCh (PArray [bytes "PING"]))); LHandler 1 HSend;
                LLoop (CommandsC 3)] demo_init;
   Some (omap (λ a, match a with
                    | A_get _ _ k => Some (true, length k)
                    | A_set _ _ k => Some (false, length k)
                    | _ => None
                    end) (trace s), snd (store (world s)))) =
  Some ([(true, 2%nat); (false, 3%nat); (false, 1%nat)],
        [(0%nat, SET_a_1); (0%nat, [bytes "PING"])]).
Proof. vm_compute. reflexivity. Qed.

(** Three events are due at the same tick: one runs. *)
Example tick_with_three_due :
  (s ← eventLoop_iter (TimerC (400 * Second)) three_due_state;
   Some (length (filter (due (400 * Second)) (tl three_due_state)),
         snd (store (world s)),
         when <$> tl s,
         omap (λ a, match a with A_timer n => Some n | _ => None end) (trace s))) =
  Some (3%nat, [], [700; 10; 20], [1%nat]).
Proof. vm_compute. reflexivity. Qed.

Example two_ticks_with_three_due :
  (s ← eventLoop_run [TimerC (400 * Second); TimerC (401 * Second)] three_due_state;
   Some (snd (store (world s)), when <$> tl s)) =
  Some ([(7%nat, [])], [700; 461; 20]).
Proof. vm_compute. reflexivity. Qed.




End Server.

(** * Facts about [Line] *)

Module LineFacts.
Import Readline.

Lemma slice_from_ok (s : list byte) lo :
  0 ≤ lo ≤ len s → slice_from s lo = Some (drop (Z.to_nat lo) s).
Proof. intros H. unfold slice_from. by rewrite decide_True. Qed.

Lemma len_app (s t : list byte) : len (s ++ t) = len s + len t.
Proof. unfold len. rewrite length_app. lia. Qed.

Lemma write_at_end l c :
  insertPos l = len (content l) →
  write c l = Some (mkLine (insertPos l + 1) (content l ++ [c]), insertPos l + 1, [c]).
Proof.
  intros Hp. unfold write. rewrite decide_True by done.
  rewrite slice_from_ok by (rewrite len_app; unfold len in *; simpl; lia).
  simpl. repeat f_equal. rewrite Hp. unfold len.
  replace (Z.to_nat (Z.of_nat (length (content l)) + 1 - 1)) with (length (content l)) by lia.
  by rewrite drop_app_length.
Qed.

Lemma write_inside l c :
  0 ≤ insertPos l < len (content l) →
  write c l =
  Some (mkLine (insertPos l + 1)
          (take (Z.to_nat (insertPos l)) (content l)
             ++ c :: drop (Z.to_nat (insertPos l)) (content l)),
        insertPos l + 1,
        c :: drop (Z.to_nat (insertPos l)) (content l)).
Proof.
  intros Hp. unfold write. rewrite decide_False by lia.
  destruct l as [pos ct]. simpl in *. unfold len in Hp.
  set (n := Z.to_nat pos). assert (Hn : (n < length ct)%nat) by lia.
  rewrite !slice_from_ok by (rewrite len_app; unfold len; simpl; lia).
  simpl.
  replace (Z.to_nat pos) with n by done.
  assert (Hcopy : copy_at (ct ++ [x00]) (pos + 1) (drop n (ct ++ [x00]))
                  = take (S n) ct ++ drop n ct).
  { unfold copy_at. replace (Z.to_nat (pos + 1)) with (S n) by lia.
    rewrite length_drop, length_app. simpl.
    replace (Nat.min (length ct + 1 - S n) (length ct + 1 - n)) with (length ct - n)%nat by lia.
    rewrite take_app_le by lia. rewrite drop_app_le by lia.
    rewrite take_app_le by (rewrite length_drop; lia).
    rewrite (take_ge (drop n ct)) by (rewrite length_drop; lia).
    rewrite (drop_ge (ct ++ [x00])) by (rewrite length_app; simpl; lia).
    by rewrite app_nil_r. }
  rewrite Hcopy.
  destruct (lookup_lt_is_Some_2 ct n Hn) as [x Hx].
  assert (Hset : <[n := c]> (take (S n) ct ++ drop n ct) = take n ct ++ c :: drop n ct).
  { rewrite (take_S_r ct n x Hx), <- app_assoc. simpl.
    rewrite insert_app_r_alt by (rewrite length_take; lia).
    rewrite length_take. replace (n - n `min` length ct)%nat with O by lia. done. }
  unfold index_set. rewrite decide_True
    by (unfold len; rewrite length_app, length_take, length_drop; lia).
  simpl. replace (Z.to_nat pos) with n by done. rewrite Hset.
  rewrite slice_from_ok
    by (unfold len; rewrite length_app, length_take; simpl; rewrite length_drop; lia).
  simpl. repeat f_equal.
  replace (Z.to_nat (pos + 1 - 1)) with n by lia.
  rewrite drop_app_length'; [done|]. rewrite length_take. lia.
Qed.

Lemma delete_inside l :
  0 < insertPos l ≤ len (content l) →
  delete l =
  Some (mkLine (insertPos l - 1)
          (take (Z.to_nat (insertPos l - 1)) (content l)
             ++ drop (Z.to_nat (insertPos l)) (content l)),
        insertPos l - 1,
        drop (Z.to_nat (insertPos l)) (content l) ++ [x20]).
Proof.
  intros Hp. unfold delete. rewrite decide_False by lia.
  rewrite decide_True by lia. rewrite slice_from_ok by lia. simpl.
  unfold len in Hp.
  rewrite slice_from_ok
    by (unfold len; rewrite length_app, length_take, length_drop; lia).
  simpl. rewrite drop_app_length'; [done|]. rewrite length_take. lia.
Qed.

Lemma wrap64_small z : - 2 ^ 63 ≤ z < 2 ^ 63 → wrap64 z = z.
Proof. intros H. unfold wrap64. rewrite Z.mod_small; lia. Qed.

Lemma moveCursor_clamps off l :
  content (moveCursor off l) = content l
  ∧ insertPos (moveCursor off l)
    = Z.max 0 (Z.min (len (content l)) (wrap64 (insertPos l + off))).
Proof.
  unfold moveCursor. assert (0 ≤ len (content l)) by (unfold len; lia).
  repeat case_decide; simpl; split; try done; lia.
Qed.

Lemma newLine_ok : line_ok newLine.
Proof. unfold line_ok, newLine, len. simpl. lia. Qed.

Lemma newLineFrom_ok c : line_ok (newLineFrom c).
Proof. unfold line_ok, newLineFrom, len. simpl. lia. Qed.

(** C10: on a line whose cursor is within its content, [write] puts the
    byte at the cursor and moves the cursor one to the right, [delete] does
    nothing when the cursor is at 0 and otherwise takes out the byte before
    the cursor and moves the cursor one to the left, and [moveCursor] adds
    the offset and clamps the result to the content; after each of the three
    the cursor is within the content again. *)
Theorem line_operations_keep_cursor_in_range l :
  line_ok l →
    (∀ c, ∃ l' out,
        write c l = Some (l', insertPos l + 1, out)
      ∧ insertPos l' = insertPos l + 1
      ∧ content l' = take (Z.to_nat (insertPos l)) (content l)
                       ++ c :: drop (Z.to_nat (insertPos l)) (content l)
      ∧ line_ok l')
  ∧ (insertPos l = 0 → delete l = Some (l, 0, []))
  ∧ (insertPos l ≠ 0 → ∃ l' out,
        delete l = Some (l', insertPos l - 1, out)
      ∧ insertPos l' = insertPos l - 1
      ∧ content l' = take (Z.to_nat (insertPos l - 1)) (content l)
                       ++ drop (Z.to_nat (insertPos l)) (content l)
      ∧ line_ok l')
  ∧ (∀ off,
        line_ok (moveCursor off l)
      ∧ content (moveCursor off l) = content l
      ∧ insertPos (moveCursor off l)
        = Z.max 0 (Z.min (len (content l)) (wrap64 (insertPos l + off)))
      ∧ (- 2 ^ 63 ≤ insertPos l + off < 2 ^ 63 →
         insertPos (moveCursor off l)
         = Z.max 0 (Z.min (len (content l)) (insertPos l + off)))).
Proof.
  intros Hok. unfold line_ok in Hok. split_and!.
  - intros c. destruct (decide (insertPos l = len (content l))) as [Heq|Hne].
    + eexists _, _. split; [by apply write_at_end|]. simpl.
      rewrite Heq. unfold len. rewrite Nat2Z.id, take_ge, drop_ge by lia.
      split_and!; try done. unfold line_ok, len. simpl.
      rewrite length_app. simpl. lia.
    + eexists _, _. split; [apply write_inside; lia|]. simpl.
      split_and!; try done. unfold line_ok, len in *. simpl.
      rewrite length_app, length_take. simpl. rewrite length_drop. lia.
  - intros H0. unfold delete. by rewrite decide_True.
  - intros Hne. eexists _, _. split; [apply delete_inside; lia|]. simpl.
    split_and!; try done. unfold line_ok, len in *. simpl.
    rewrite length_app, length_take, length_drop. lia.
  - intros off. destruct (moveCursor_clamps off l) as [Hc Hp].
    assert (0 ≤ len (content l)) by (unfold len; lia).
    split_and!; try done.
    + unfold line_ok. rewrite Hc, Hp. lia.
    + intros Hr. by rewrite Hp, wrap64_small.
Qed.

Lemma line_operations_witness :
    (∀ c, ∃ l' out,
        write c (mkLine 1 [x61; x62]) = Some (l', 2, out)
      ∧ insertPos l' = 2
      ∧ content l' = [x61; c; x62]
      ∧ line_ok l')
  ∧ (∃ l' out, delete (mkLine 1 [x61; x62]) = Some (l', 0, out)
             ∧ content l' = [x62] ∧ line_ok l')
  ∧ insertPos (moveCursor 5 (mkLine 1 [x61; x62])) = 2
  ∧ insertPos (moveCursor (-5) (mkLine 1 [x61; x62])) = 0
  ∧ insertPos (moveCursor (2 ^ 63 - 1) (mkLine 1 [x61; x62])) = 0.
Proof.
  assert (Hok : line_ok (mkLine 1 [x61; x62])) by (vm_compute; split; discriminate).
  destruct (line_operations_keep_cursor_in_range (mkLine 1 [x61; x62]) Hok)
    as (Hw & _ & Hd & Hm).
  split_and!.
  - intros c. destruct (Hw c) as (l' & out & H1 & H2 & H3 & H4).
    exists l', out. split_and!; [exact H1|exact H2|exact H3|exact H4].
  - destruct Hd as (l' & out & H1 & H2 & H3 & H4); [discriminate|].
    exists l', out. split_and!; [exact H1|exact H3|exact H4].
  - rewrite (proj1 (proj2 (proj2 (Hm 5)))). reflexivity.
  - rewrite (proj1 (proj2 (proj2 (Hm (-5))))). reflexivity.
  - rewrite (proj1 (proj2 (proj2 (Hm (2 ^ 63 - 1))))). reflexivity.
Defined.

(** An offset close to the largest [int] takes the sum around to a negative
    number, and the cursor goes to 0. *)
Example moveCursor_wraps :
  moveCursor (2 ^ 63 - 1) (mkLine 1 [x61; x62]) = mkLine 0 [x61; x62].
Proof. reflexivity. Qed.

(** A cursor outside the content makes [write] and [delete] panic. *)
Example write_out_of_range : write x63 (mkLine 5 [x61; x62]) = None.
Proof. reflexivity. Qed.

Example delete_out_of_range : delete (mkLine (-1) [x61; x62]) = None.
Proof. reflexivity. Qed.

Example write_in_the_middle :
  write x63 (mkLine 1 [x61; x62]) = Some (mkLine 2 [x61; x63; x62], 2, [x63; x62]).
Proof. reflexivity. Qed.

Example delete_in_the_middle :
  delete (mkLine 1 [x61; x62]) = Some (mkLine 0 [x62], 0, [x62; x20]).
Proof. reflexivity. Qed.
End LineFacts.
